(** * Keper: image collection, relay and replacement

    A shallow embedding of the browser extension's two scripts:
    - [content.js]: the page scanner [collectImageData], the DOM updater
      [replaceImages] and the content-side message listener;
    - [background.js]: the relay [sendImagesToPythonServer] and the
      background-side message listener.

    Script-global state is passed explicitly ([Page]); calls into the browser
    (network fetches, message sends, console output) are recorded as effects
    or answered by an oracle for the outside world. *)

From stdpp Require Import gmap strings list fin_maps pretty.

(** * Data model *)

(** Identity of an image element object. Two ids of the reference map may
    hold the same reference, and an element that left the document keeps its
    identity for as long as the map refers to it. *)
Abbreviation ElemRef := nat (only parsing).

(** The properties of an [HTMLImageElement] that the scripts read or write.
    [src] is the value the [src] setter stores, the content attribute;
    [img.src] reads it back as a resolved URL, which is the same string for
    an absolute URL such as a data URL. The natural size is the one of the
    image the element shows at the time it is read. *)
Record HTMLImageElement := mkImg {
  naturalWidth : N;
  naturalHeight : N;
  src : string
}.

(** The values [translatedData] takes in a processed result: the key may be
    absent ([undefined]), [null], or a string. The same values serve for
    what a promise is fulfilled with and for the [data] of a descriptor. *)
Inductive JsValue :=
  | JUndefined
  | JNull
  | JString (s : string).

(** [{ id, data }], the element of [results] in [collectImageData]. [data]
    is whatever the conversion was fulfilled with: a data URL, or [null]. *)
Record ImageDescriptor := mkDescriptor {
  img_id : string;
  img_data : JsValue
}.

(** [{ id, translatedData }], the element of [translatedImages]. *)
Record ProcessedResult := mkResult {
  res_id : string;
  translatedData : JsValue
}.

(** Messages on the host channel, tagged by their [action]. *)
Inductive Message :=
  | START_TRANSLATION
  | IMAGES_FOUND (images : list ImageDescriptor)
  | REPLACE_IMAGES (translatedImages : list ProcessedResult).

(** Console output of the content script. The error entry records the
    element's [src] attribute; the console shows [img.src], its resolved
    form. *)
Inductive ConsoleEntry :=
  | ErrorConvertingImage (src : string)
  | LogReceived (n : nat).

(** The state the content script lives in: its global [imageReferenceMap]
    (own properties only, see [replaceItem]), the image element objects, the
    result of [document.querySelectorAll("img")] in document order, the
    messages handed to [chrome.runtime.sendMessage], and the console. *)
Record Page := mkPage {
  imageReferenceMap : gmap string ElemRef;
  heap : gmap ElemRef HTMLImageElement;
  document : list ElemRef;
  sent : list Message;
  console : list ConsoleEntry
}.

#[global] Instance JsValue_eq_dec : EqDecision JsValue.
Proof. solve_decision. Defined.
#[global] Instance ImageDescriptor_eq_dec : EqDecision ImageDescriptor.
Proof. solve_decision. Defined.
#[global] Instance ProcessedResult_eq_dec : EqDecision ProcessedResult.
Proof. solve_decision. Defined.
#[global] Instance HTMLImageElement_eq_dec : EqDecision HTMLImageElement.
Proof. solve_decision. Defined.

(** * JavaScript primitives used by the scripts *)

(** ToBoolean on [JsValue]: [undefined], [null] and [""] are falsy. *)
Definition truthy (v : JsValue) : bool :=
  match v with
  | JUndefined | JNull => false
  | JString s => negb (String.eqb s "")
  end.

(** ToString on [JsValue], applied by the [src] setter to its argument. *)
Definition ToString (v : JsValue) : string :=
  match v with
  | JUndefined => "undefined"
  | JNull => "null"
  | JString s => s
  end.

(** [Array.prototype.forEach] with the callback's effect on a state. *)
Fixpoint forEach {A S : Type} (f : A → S → S) (l : list A) (s : S) : S :=
  match l with
  | [] => s
  | x :: l' => forEach f l' (f x s)
  end.

(** * content.js *)

(** The outcome of [await convertImageToBase64(img.src)] once the promise
    has settled. It is fulfilled with [reader.result] as it is when [loadend]
    fires: the data URL after a load, [null] after a read error, for which
    the function has no handler. It is rejected when [fetch] or
    [response.blob()] rejects; the [try]/[catch] of the loop observes a
    rejection as a throw, and nothing else. *)
Inductive Settled :=
  | Fulfilled (result : JsValue)
  | Rejected.

(** The threshold test of the loop, [naturalWidth <= 50 || naturalHeight <= 50]. *)
Definition belowThreshold (img : HTMLImageElement) : bool :=
  (naturalWidth img <=? 50)%N || (naturalHeight img <=? 50)%N.

(** [`img-${i}`] *)
Definition imgId (i : nat) : string := "img-" +:+ pretty i.

(** The accumulator of the scanning loop: the global map, the local
    [results] array and the console. *)
Record ScanState := mkScan {
  scan_map : gmap string ElemRef;
  results : list ImageDescriptor;
  scan_console : list ConsoleEntry
}.

Section Scanner.
(** The world outside the page: what the conversion started in iteration
    [i] for the element with attribute [src] settles to. The browser resolves
    the attribute against the document URL into the [img.src] it fetches;
    that resolution is part of the oracle. *)
Variable convertImageToBase64 : nat → string → Settled.
Variable h : gmap ElemRef HTMLImageElement.

(** One iteration of the [for] loop, for [img = imgElements[i]]. A node
    list holds element objects only, so the lookup in [h] succeeds on
    every page the browser builds; a reference without object is passed
    over. Whatever the conversion is fulfilled with is pushed, [null]
    included; only a rejection reaches the [catch]. *)
Definition scanStep (i : nat) (r : ElemRef) (st : ScanState) : ScanState :=
  match h !! r with
  | None => st
  | Some img =>
      if belowThreshold img then st
      else
        let id := imgId i in
        let m := <[id := r]> (scan_map st) in
        match convertImageToBase64 i (src img) with
        | Fulfilled base64 =>
            mkScan m (results st ++ [mkDescriptor id base64]) (scan_console st)
        | Rejected =>
            mkScan m (results st) (scan_console st ++ [ErrorConvertingImage (src img)])
        end
  end.

(** The [for] loop from index [i] over the remaining elements. *)
Fixpoint scanFrom (i : nat) (imgElements : list ElemRef) (st : ScanState) : ScanState :=
  match imgElements with
  | [] => st
  | r :: rest => scanFrom (S i) rest (scanStep i r st)
  end.
End Scanner.

(** [collectImageData]: scan the document, then send one [IMAGES_FOUND]
    message with [results]. The map is the script's global and is updated
    in place; nothing clears it. A run is taken as a whole: no other message
    is handled between two of its awaits. *)
Definition collectImageData (convertImageToBase64 : nat → string → Settled)
    (p : Page) : Page :=
  let st := scanFrom convertImageToBase64 (heap p) 0 (document p)
              (mkScan (imageReferenceMap p) [] (console p)) in
  mkPage (scan_map st) (heap p) (document p)
         (sent p ++ [IMAGES_FOUND (results st)]) (scan_console st).

(** [imgElement.src = translatedData]: the setter stores the string. The
    browser loads the new image afterwards and the natural size follows it;
    the scripts do not wait for that, and the record keeps the size the
    element had when the source was assigned. *)
Definition setSrc (s : string) (img : HTMLImageElement) : HTMLImageElement :=
  mkImg (naturalWidth img) (naturalHeight img) s.

(** The callback of [translatedImages.forEach], acting on the element
    objects. [imageReferenceMap[id]] is an image element exactly when [id]
    is an own property of the map: any other key yields [undefined], or a
    member inherited from [Object.prototype], which is not an image element,
    so that no image element is written for it. *)
Definition replaceItem (m : gmap string ElemRef) (item : ProcessedResult)
    (hp : gmap ElemRef HTMLImageElement) : gmap ElemRef HTMLImageElement :=
  match m !! res_id item with
  | Some imgElement =>
      if truthy (translatedData item)
      then alter (setSrc (ToString (translatedData item))) imgElement hp
      else hp
  | None => hp
  end.

(** [replaceImages] *)
Definition replaceImages (translatedImages : list ProcessedResult) (p : Page) : Page :=
  mkPage (imageReferenceMap p)
         (forEach (replaceItem (imageReferenceMap p)) translatedImages (heap p))
         (document p) (sent p)
         (console p ++ [LogReceived (length translatedImages)]).

(** The listener registered with [chrome.runtime.onMessage] in content.js. *)
Definition contentOnMessage (convertImageToBase64 : nat → string → Settled)
    (request : Message) (p : Page) : Page :=
  match request with
  | START_TRANSLATION => collectImageData convertImageToBase64 p
  | REPLACE_IMAGES translatedImages => replaceImages translatedImages p
  | IMAGES_FOUND _ => p
  end.

(** * background.js *)

(** What [fetch] hands back when it resolves: the status line and the
    outcome of [response.json()], [None] when the body is not JSON and the
    call rejects. *)
Record Response := mkResponse {
  status : nat;
  json : option (list ProcessedResult)
}.

(** [response.ok]: the status is in the range 200-299. *)
Definition ok (r : Response) : bool :=
  (200 <=? status r)%nat && (status r <=? 299)%nat.

(** The outcome of [await fetch(...)]: the promise rejects on a network
    error and resolves with the response otherwise, whatever its status. *)
Inductive FetchOutcome :=
  | NetworkError
  | Responds (r : Response).

(** What the background script does to the outside world. *)
Inductive Effect :=
  | Fetch (url : string) (images : list ImageDescriptor)
  | TabsSendMessage (tabId : nat) (msg : Message)
  | ConsoleLogFound (n : nat)
  | ConsoleErrorServer.

#[global] Instance Message_eq_dec : EqDecision Message.
Proof. solve_decision. Defined.
#[global] Instance Effect_eq_dec : EqDecision Effect.
Proof. solve_decision. Defined.

Definition endpoint : string := "http://localhost:5000/process_images".

(** [sendImagesToPythonServer], as the effects it performs in order. The
    server is the oracle answering the one request. *)
Definition sendImagesToPythonServer (server : list ImageDescriptor → FetchOutcome)
    (images : list ImageDescriptor) (tabId : nat) : list Effect :=
  if (length images =? 0)%nat then []
  else
    Fetch endpoint images ::
    match server images with
    | NetworkError => [ConsoleErrorServer]
    | Responds response =>
        match json response with
        | None => [ConsoleErrorServer]
        | Some translatedImages =>
            [TabsSendMessage tabId (REPLACE_IMAGES translatedImages)]
        end
    end.

(** The listener registered with [chrome.runtime.onMessage] in
    background.js; [tabId] is [sender.tab.id]. *)
Definition backgroundOnMessage (server : list ImageDescriptor → FetchOutcome)
    (request : Message) (tabId : nat) : list Effect :=
  match request with
  | IMAGES_FOUND images =>
      ConsoleLogFound (length images) :: sendImagesToPythonServer server images tabId
  | _ => []
  end.

(** The listener registered with [chrome.action.onClicked]; [tab.id] is
    absent for tabs without an id. *)
Definition onClicked (tabId : option nat) : list Effect :=
  match tabId with
  | Some t => if (t =? 0)%nat then [] else [TabsSendMessage t START_TRANSLATION]
  | None => []
  end.

(** * Auxiliary definitions for the statements *)

(** The string an entry stores into element [r], if it stores one. *)
Definition writeOf (m : gmap string ElemRef) (item : ProcessedResult)
    (r : ElemRef) : option string :=
  if decide (m !! res_id item = Some r)
  then if truthy (translatedData item)
       then Some (ToString (translatedData item)) else None
  else None.

(** The last string a sequence of entries stores into element [r]. *)
Fixpoint lastWrite (m : gmap string ElemRef) (l : list ProcessedResult)
    (r : ElemRef) : option string :=
  match l with
  | [] => None
  | item :: l' =>
      match lastWrite m l' r with
      | Some s => Some s
      | None => writeOf m item r
      end
  end.

Definition applyWrite (w : option string) (o : option HTMLImageElement) :
    option HTMLImageElement :=
  match w with
  | Some s => setSrc s <$> o
  | None => o
  end.

(** The source of the element behind a reference. *)
Definition srcOf (p : Page) (r : ElemRef) : option string :=
  src <$> heap p !! r.

(** The descriptor iteration [i] pushes for element [r], if it pushes one. *)
Definition descriptorAt (conv : nat → string → Settled)
    (h : gmap ElemRef HTMLImageElement) (i : nat) (r : ElemRef) :
    option ImageDescriptor :=
  match h !! r with
  | Some img =>
      if belowThreshold img then None
      else match conv i (src img) with
           | Fulfilled base64 => Some (mkDescriptor (imgId i) base64)
           | Rejected => None
           end
  | None => None
  end.

(** The descriptors pushed by the iterations from [i] on. *)
Fixpoint emitted (conv : nat → string → Settled)
    (h : gmap ElemRef HTMLImageElement) (i : nat) (l : list ElemRef) :
    list ImageDescriptor :=
  match l with
  | [] => []
  | r :: rest =>
      match descriptorAt conv h i r with
      | Some d => d :: emitted conv h (S i) rest
      | None => emitted conv h (S i) rest
      end
  end.

(** Element [r] is an image above the threshold in both dimensions. *)
Definition qualifies (h : gmap ElemRef HTMLImageElement) (r : ElemRef) : bool :=
  match h !! r with
  | Some img => negb (belowThreshold img)
  | None => false
  end.

(** The element the iterations from [i] on leave under [key], if they
    assign that key. *)
Fixpoint registered (h : gmap ElemRef HTMLImageElement) (i : nat)
    (l : list ElemRef) (key : string) : option ElemRef :=
  match l with
  | [] => None
  | r :: rest =>
      match registered h (S i) rest key with
      | Some r' => Some r'
      | None => if bool_decide (key = imgId i) && qualifies h r then Some r else None
      end
  end.

(** The descriptor sequence of the [IMAGES_FOUND] message a run sends. *)
Definition scanned (conv : nat → string → Settled) (p : Page) : list ImageDescriptor :=
  emitted conv (heap p) 0 (document p).

(** [conv] with the outcome of iteration [k] replaced. *)
Definition settleAt (conv : nat → string → Settled) (k : nat) (o : Settled) :
    nat → string → Settled :=
  λ i s, if decide (i = k) then o else conv i s.

(** The network requests and the result messages among some effects. *)
Definition isFetch (e : Effect) : bool :=
  match e with Fetch _ _ => true | _ => false end.

Definition isReplaceImages (e : Effect) : bool :=
  match e with TabsSendMessage _ (REPLACE_IMAGES _) => true | _ => false end.

(** ** Example inputs *)

(** A conversion that always succeeds, and one that always fails. *)
Definition dataUrl : nat → string → Settled :=
  λ _ s, Fulfilled (JString ("data:" +:+ s)).
Definition offline : nat → string → Settled := λ _ _, Rejected.

(** Three images of 100x100, 30x30 and 60x60. *)
Definition threeImages (s0 s1 s2 : string) : gmap ElemRef HTMLImageElement :=
  <[0%nat := mkImg 100 100 s0]>
    (<[1%nat := mkImg 30 30 s1]> (<[2%nat := mkImg 60 60 s2]> ∅)).

Definition examplePage : Page :=
  mkPage ∅ (threeImages "a.png" "b.png" "c.png") [0; 1; 2]%nat [] [].

(** A page with one image of 100x100. *)
Definition oneImagePage : Page :=
  mkPage ∅ {[0%nat := mkImg 100 100 "a.png"]} [0%nat] [] [].

(** * The converters of the two scripts *)

(** What the [FileReader] does with a blob: [load] with the data URL in
    [reader.result], or [error], after which [reader.result] is [null];
    [loadend] fires after either. *)
Inductive ReaderOutcome :=
  | Loaded (result : string)
  | ReadError.

(** The response to the request for an image: its status,
    [response.headers.get('content-type')] ([None] for [null], the header
    being absent), and the outcome of [response.blob()] followed by the
    reader ([None] when [response.blob()] rejects). *)
Record ImageResponse := mkImageResponse {
  img_status : nat;
  contentType : option string;
  blobRead : option ReaderOutcome
}.

(** How the promise of an [async] function settles. *)
Inductive Returned :=
  | Resolves (v : JsValue)
  | Rejects.

(** Console output of [fetchImageAndConvertToBase64]. *)
Inductive BgConsoleEntry :=
  | FailedToFetchImage (url : string)
  | ErrorFetchingImageUrl (url : string).

(** [response.ok] for a status. *)
Definition statusOk (n : nat) : bool := (200 <=? n)%nat && (n <=? 299)%nat.

(** content.js, [convertImageToBase64]. [fetch] rejects when the network
    has no response, [response.blob()] may reject, and the promise resolves
    with [reader.result] on [loadend], after a load or after an error. *)
Definition convertImageToBase64 (net : string → option ImageResponse)
    (src : string) : Returned :=
  match net src with
  | None => Rejects
  | Some response =>
      match blobRead response with
      | None => Rejects
      | Some (Loaded result) => Resolves (JString result)
      | Some ReadError => Resolves JNull
      end
  end.

(** background.js, [fetchImageAndConvertToBase64], with what it logs. The
    [||] reads the header only for an ok response; [startsWith] on a [null]
    header throws inside the [try]. The promise of the reader is returned
    without [await], so its rejection by [reader.onerror] is not caught. *)
Definition fetchImageAndConvertToBase64 (net : string → option ImageResponse)
    (url : string) : Returned * list BgConsoleEntry :=
  match net url with
  | None => (Resolves JNull, [ErrorFetchingImageUrl url])
  | Some response =>
      if negb (statusOk (img_status response))
      then (Resolves JNull, [FailedToFetchImage url])
      else
        match contentType response with
        | None => (Resolves JNull, [ErrorFetchingImageUrl url])
        | Some ct =>
            if negb (String.prefix "image/" ct)
            then (Resolves JNull, [FailedToFetchImage url])
            else
              match blobRead response with
              | None => (Resolves JNull, [ErrorFetchingImageUrl url])
              | Some (Loaded result) => (Resolves (JString result), [])
              | Some ReadError => (Rejects, [])
              end
        end
  end.

(** What the loop of [collectImageData] awaits when the network is [net]:
    the promise of [convertImageToBase64], fulfilled with what it resolves
    with or rejected. *)
Definition awaited (net : string → option ImageResponse) : nat → string → Settled :=
  λ _ src,
    match convertImageToBase64 net src with
    | Resolves v => Fulfilled v
    | Rejects => Rejected
    end.

(** A network that answers every request with an ok PNG response; the
    reader fails on the body of [bad] and loads every other one. *)
Definition readerFailsOn (bad : string) : string → option ImageResponse :=
  λ src,
    Some (mkImageResponse 200 (Some "image/png")
            (if String.eqb src bad then Some ReadError
             else Some (Loaded ("data:" +:+ src)))).

(** * The host channel between the two scripts *)

(** [chrome.tabs.sendMessage(t, msg)] runs the content listener of tab [t];
    the page modelled is the one of tab [tabId]. *)
Definition deliverToTab (conv : nat → string → Settled) (tabId : nat)
    (e : Effect) (p : Page) : Page :=
  match e with
  | TabsSendMessage t msg =>
      if (t =? tabId)%nat then contentOnMessage conv msg p else p
  | _ => p
  end.

(** One click on the extension icon in the tab of the page, followed to its
    end. The background script tells the tab to start ([clicked]); the
    messages the page then hands to [chrome.runtime.sendMessage] run the
    background listener with [sender.tab.id = tabId] ([cycleEffects]); what
    that listener sends to tabs is delivered in turn ([cycle]). *)
Definition clicked (conv : nat → string → Settled) (tabId : nat) (p : Page) : Page :=
  forEach (deliverToTab conv tabId) (onClicked (Some tabId)) p.

Definition cycleEffects (conv : nat → string → Settled)
    (server : list ImageDescriptor → FetchOutcome) (tabId : nat) (p : Page) :
    list Effect :=
  let outgoing := drop (length (sent p)) (sent (clicked conv tabId p)) in
  concat ((λ msg, backgroundOnMessage server msg tabId) <$> outgoing).

Definition cycle (conv : nat → string → Settled)
    (server : list ImageDescriptor → FetchOutcome) (tabId : nat) (p : Page) : Page :=
  forEach (deliverToTab conv tabId) (cycleEffects conv server tabId p)
          (clicked conv tabId p).

(** A server that answers every request with status 200 and one result per
    descriptor, under the descriptor's id. *)
Definition translatingServer (translate : ImageDescriptor → string) :
    list ImageDescriptor → FetchOutcome :=
  λ images,
    Responds (mkResponse 200
      (Some ((λ d, mkResult (img_id d) (JString (translate d))) <$> images))).

(** ** Further auxiliary definitions *)

(** The element an entry writes, if it writes one. *)
Definition target (m : gmap string ElemRef) (item : ProcessedResult) :
    option ElemRef :=
  if truthy (translatedData item) then m !! res_id item else None.

(** The console entry iteration [i] adds for element [r], if it adds one. *)
Definition errorAt (conv : nat → string → Settled)
    (h : gmap ElemRef HTMLImageElement) (i : nat) (r : ElemRef) :
    option ConsoleEntry :=
  match h !! r with
  | Some img =>
      if belowThreshold img then None
      else match conv i (src img) with
           | Fulfilled _ => None
           | Rejected => Some (ErrorConvertingImage (src img))
           end
  | None => None
  end.

(** The console entries added by the iterations from [i] on. *)
Fixpoint logged (conv : nat → string → Settled)
    (h : gmap ElemRef HTMLImageElement) (i : nat) (l : list ElemRef) :
    list ConsoleEntry :=
  match l with
  | [] => []
  | r :: rest =>
      match errorAt conv h i r with
      | Some e => e :: logged conv h (S i) rest
      | None => logged conv h (S i) rest
      end
  end.

(** A page with one image exactly 50 wide. *)
Definition narrowImagePage : Page :=
  mkPage {["img-3" := 9%nat]} {[0%nat := mkImg 50 1000 "n.png"]} [0%nat] [] [].

(** * Properties of the DOM updater *)

Section Updater.
Variable m : gmap string ElemRef.

Lemma replaceItem_lookup item hp r :
  replaceItem m item hp !! r = applyWrite (writeOf m item r) (hp !! r).
Proof.
  unfold replaceItem, writeOf.
  destruct (m !! res_id item) as [e|] eqn:He.
  - destruct (truthy (translatedData item)).
    + rewrite lookup_alter. destruct (decide (e = r)) as [->|Hne].
      * rewrite decide_True by done. done.
      * rewrite decide_False by congruence. done.
    + by destruct (decide _).
  - rewrite decide_False by done. done.
Qed.

Lemma applyWrite_absorb w s o :
  applyWrite (Some s) (applyWrite w o) = applyWrite (Some s) o.
Proof. destruct w, o; done. Qed.

Lemma forEach_replaceItem_lookup l hp r :
  forEach (replaceItem m) l hp !! r = applyWrite (lastWrite m l r) (hp !! r).
Proof.
  revert hp. induction l as [|item l IH]; intros hp; simpl; [done|].
  rewrite IH, replaceItem_lookup.
  destruct (lastWrite m l r) as [s|]; [apply applyWrite_absorb|done].
Qed.

Lemma lastWrite_app l1 l2 r :
  lastWrite m (l1 ++ l2) r =
  match lastWrite m l2 r with Some s => Some s | None => lastWrite m l1 r end.
Proof.
  induction l1 as [|item l1 IH]; simpl.
  - by destruct (lastWrite m l2 r).
  - rewrite IH. by destruct (lastWrite m l2 r).
Qed.

Lemma lastWrite_none l r :
  (∀ item, item ∈ l → writeOf m item r = None) → lastWrite m l r = None.
Proof.
  induction l as [|item l IH]; intros H; simpl; [done|].
  rewrite IH by (intros; apply H; by right).
  apply H. by left.
Qed.

(** An entry that stores nothing can be dropped from the sequence. *)
Lemma forEach_replaceItem_skip l1 item l2 hp :
  (∀ r, writeOf m item r = None) →
  forEach (replaceItem m) (l1 ++ item :: l2) hp =
  forEach (replaceItem m) (l1 ++ l2) hp.
Proof.
  intros Hw. apply map_eq. intros r.
  rewrite !forEach_replaceItem_lookup, !lastWrite_app. simpl.
  rewrite Hw. by destruct (lastWrite m l2 r).
Qed.

Lemma forEach_replaceItem_idem l hp :
  forEach (replaceItem m) l (forEach (replaceItem m) l hp) =
  forEach (replaceItem m) l hp.
Proof.
  apply map_eq. intros r. rewrite !forEach_replaceItem_lookup.
  destruct (lastWrite m l r); [apply applyWrite_absorb|done].
Qed.

Lemma writeOf_falsy item r :
  truthy (translatedData item) = false → writeOf m item r = None.
Proof. intros H. unfold writeOf. rewrite H. by destruct (decide _). Qed.

Lemma writeOf_unknown item r :
  m !! res_id item = None → writeOf m item r = None.
Proof. intros H. unfold writeOf. rewrite decide_False; [done|congruence]. Qed.

Lemma replaceItem_no_write item hp :
  (∀ r, writeOf m item r = None) → replaceItem m item hp = hp.
Proof.
  intros Hw. apply map_eq. intros r. by rewrite replaceItem_lookup, Hw.
Qed.
End Updater.

(** C1, as stated, fails when a later entry of the same sequence resolves to
    the same element: for the two results [{id: "img-0", translatedData:
    "data:A"}, {id: "img-0", translatedData: "data:B"}] the first one meets
    every condition of the claim, and the element's source ends as "data:B". *)
Lemma replaceImages_later_entry_overrides :
  let p := collectImageData dataUrl examplePage in
  let item := mkResult "img-0" (JString "data:A") in
  let translatedImages := [item; mkResult "img-0" (JString "data:B")] in
  item ∈ translatedImages ∧
  imageReferenceMap p !! res_id item = Some 0%nat ∧
  heap p !! 0%nat = Some (mkImg 100 100 "a.png") ∧
  translatedData item = JString "data:A" ∧
  truthy (translatedData item) = true ∧
  srcOf (replaceImages translatedImages p) 0%nat = Some "data:B" ∧
  srcOf (replaceImages translatedImages p) 0%nat ≠ Some "data:A".
Proof.
  cbv zeta. split; [by left|].
  repeat split; try (vm_compute; reflexivity).
  vm_compute. discriminate.
Qed.

(** C1 (amended): a processed result whose id maps to a live element and
    whose translatedData is a non-empty string leaves that element's source
    equal to exactly translatedData once the DOM updater has run, provided no
    later result of the same sequence with truthy data resolves to the same
    element. *)
Theorem replaceImages_sets_src p l1 item l2 r img s :
  imageReferenceMap p !! res_id item = Some r →
  heap p !! r = Some img →
  translatedData item = JString s →
  s ≠ "" →
  (∀ later, later ∈ l2 →
     imageReferenceMap p !! res_id later = Some r →
     truthy (translatedData later) = false) →
  srcOf (replaceImages (l1 ++ item :: l2) p) r = Some s.
Proof.
  intros Hid Hlive Htd Hne Hlater. unfold srcOf, replaceImages. simpl.
  rewrite forEach_replaceItem_lookup, lastWrite_app. simpl.
  rewrite lastWrite_none.
  - unfold writeOf. rewrite decide_True by done. rewrite Htd. simpl.
    destruct (String.eqb_spec s ""); [done|]. simpl. by rewrite Hlive.
  - intros later Hin. unfold writeOf.
    destruct (decide (imageReferenceMap p !! res_id later = Some r)); [|done].
    by rewrite (Hlater later Hin).
Qed.

Lemma replaceImages_sets_src_witness :
  srcOf (replaceImages
           ([mkResult "img-2" (JString "data:Z")]
              ++ mkResult "img-0" (JString "data:X")
              :: [mkResult "img-0" JNull; mkResult "img-7" (JString "data:Y")])
           (collectImageData dataUrl examplePage)) 0%nat
  = Some "data:X".
Proof.
  apply (replaceImages_sets_src (collectImageData dataUrl examplePage)
           [mkResult "img-2" (JString "data:Z")]
           (mkResult "img-0" (JString "data:X"))
           [mkResult "img-0" JNull; mkResult "img-7" (JString "data:Y")]
           0%nat (mkImg 100 100 "a.png") "data:X").
  - vm_compute; reflexivity.
  - vm_compute; reflexivity.
  - reflexivity.
  - discriminate.
  - intros later Hin Hr.
    apply elem_of_cons in Hin as [->|Hin]; [reflexivity|].
    apply list_elem_of_singleton in Hin as ->.
    vm_compute in Hr. discriminate.
Defined.

(** C7: a processed result whose id is not in the reference map, or whose
    translatedData is null, writes no element: its callback leaves the
    element objects as they are, and the updater ends in the same state as
    without that entry. *)
Theorem replaceImages_ignores_unknown_or_null p l1 item l2 :
  imageReferenceMap p !! res_id item = None ∨ translatedData item = JNull →
  (∀ hp, replaceItem (imageReferenceMap p) item hp = hp) ∧
  heap (replaceImages (l1 ++ item :: l2) p) = heap (replaceImages (l1 ++ l2) p) ∧
  (∀ r, srcOf (replaceImages [item] p) r = srcOf p r).
Proof.
  intros H.
  assert (Hw : ∀ r, writeOf (imageReferenceMap p) item r = None).
  { intros r. destruct H as [H|H].
    - by apply writeOf_unknown.
    - apply writeOf_falsy. by rewrite H. }
  split; [|split].
  - intros hp. by apply replaceItem_no_write.
  - simpl. by apply forEach_replaceItem_skip.
  - intros r. unfold srcOf. simpl. by rewrite replaceItem_no_write.
Qed.

Lemma replaceImages_ignores_unknown_or_null_witness :
  heap (replaceImages
          ([mkResult "img-0" (JString "data:X")]
             ++ mkResult "img-9" (JString "data:Y") :: [])
          (collectImageData dataUrl examplePage))
  = heap (replaceImages
            ([mkResult "img-0" (JString "data:X")] ++ [])
            (collectImageData dataUrl examplePage)).
Proof.
  apply (replaceImages_ignores_unknown_or_null
           (collectImageData dataUrl examplePage)
           [mkResult "img-0" (JString "data:X")]
           (mkResult "img-9" (JString "data:Y")) []).
  left. vm_compute; reflexivity.
Defined.

(** C8: running the DOM updater twice with the same sequence of processed
    results, against the same reference map, ends in the same DOM state as
    running it once. *)
Theorem replaceImages_idempotent p translatedImages :
  let once := replaceImages translatedImages p in
  let twice := replaceImages translatedImages once in
  imageReferenceMap once = imageReferenceMap p ∧
  heap twice = heap once ∧
  document twice = document once ∧
  (∀ r, srcOf twice r = srcOf once r).
Proof.
  cbv zeta. unfold srcOf. simpl.
  rewrite forEach_replaceItem_idem. done.
Qed.

(** C10: the updater writes an element only for truthy translatedData; the
    empty string is falsy, so a result carrying it is a no-op, exactly like
    one carrying null or no data. *)
Theorem replaceImages_empty_string_noop p l1 l2 id :
  truthy (JString "") = false ∧
  (∀ item hp,
     replaceItem (imageReferenceMap p) item hp =
     if truthy (translatedData item)
     then replaceItem (imageReferenceMap p) item hp else hp) ∧
  (∀ hp, replaceItem (imageReferenceMap p) (mkResult id (JString "")) hp = hp) ∧
  heap (replaceImages (l1 ++ mkResult id (JString "") :: l2) p)
    = heap (replaceImages (l1 ++ l2) p) ∧
  heap (replaceImages (l1 ++ mkResult id (JString "") :: l2) p)
    = heap (replaceImages (l1 ++ mkResult id JNull :: l2) p) ∧
  heap (replaceImages (l1 ++ mkResult id (JString "") :: l2) p)
    = heap (replaceImages (l1 ++ mkResult id JUndefined :: l2) p).
Proof.
  assert (Hskip : ∀ v, truthy v = false →
            heap (replaceImages (l1 ++ mkResult id v :: l2) p)
            = heap (replaceImages (l1 ++ l2) p)).
  { intros v Hv. simpl. apply forEach_replaceItem_skip.
    intros r. by apply writeOf_falsy. }
  split; [done|]. split; [|split; [|split; [|split]]].
  - intros item hp. destruct (truthy (translatedData item)) eqn:Ht; [done|].
    apply replaceItem_no_write. intros r. by apply writeOf_falsy.
  - intros hp. apply replaceItem_no_write. intros r. by apply writeOf_falsy.
  - by apply Hskip.
  - by rewrite !Hskip.
  - by rewrite !Hskip.
Qed.

(** The cycle of the three-image page: the relay answers with one result
    for img-0, and only the first element's source changes. *)
Example three_images_one_result :
  let p1 := contentOnMessage dataUrl START_TRANSLATION examplePage in
  let p2 := contentOnMessage dataUrl
              (REPLACE_IMAGES [mkResult "img-0" (JString "X")]) p1 in
  sent p1 = [IMAGES_FOUND [mkDescriptor "img-0" (JString "data:a.png");
                           mkDescriptor "img-2" (JString "data:c.png")]] ∧
  srcOf p2 <$> [0; 1; 2]%nat = [Some "X"; Some "b.png"; Some "c.png"].
Proof. split; vm_compute; reflexivity. Qed.

(** * Properties of the scanner *)

Lemma imgId_inj i j : imgId i = imgId j → i = j.
Proof.
  unfold imgId. intros H. apply (inj (String.app "img-")) in H.
  by apply (inj pretty) in H.
Qed.

Section ScannerFacts.
Variable conv : nat → string → Settled.
Variable h : gmap ElemRef HTMLImageElement.

Lemma scanStep_results i r st :
  results (scanStep conv h i r st) =
  results st ++ option_list (descriptorAt conv h i r).
Proof.
  unfold scanStep, descriptorAt.
  destruct (h !! r) as [img|]; simpl; [|by rewrite app_nil_r].
  destruct (belowThreshold img); simpl; [by rewrite app_nil_r|].
  destruct (conv i (src img)); simpl; [done|by rewrite app_nil_r].
Qed.

Lemma scanFrom_results l : ∀ i st,
  results (scanFrom conv h i l st) = results st ++ emitted conv h i l.
Proof.
  induction l as [|r l IH]; intros i st; simpl.
  - by rewrite app_nil_r.
  - rewrite IH, scanStep_results.
    destruct (descriptorAt conv h i r); simpl.
    + by rewrite <- app_assoc.
    + by rewrite app_nil_r.
Qed.

Lemma elem_of_emitted l : ∀ i d,
  d ∈ emitted conv h i l ↔
  ∃ k r, l !! k = Some r ∧ descriptorAt conv h (i + k) r = Some d.
Proof.
  induction l as [|r l IH]; intros i d; simpl.
  - split; [by intros ?%elem_of_nil|]. by intros (k & r & ? & _).
  - assert (Hrest : d ∈ emitted conv h (S i) l ↔
              ∃ k r', l !! k = Some r' ∧ descriptorAt conv h (i + S k) r' = Some d).
    { rewrite IH. by setoid_rewrite Nat.add_succ_r. }
    destruct (descriptorAt conv h i r) as [d0|] eqn:Hd.
    + rewrite elem_of_cons, Hrest. split.
      * intros [->|(k & r' & Hk & Hk')].
        -- exists 0, r. by rewrite Nat.add_0_r.
        -- by exists (S k), r'.
      * intros ([|k] & r' & Hk & Hk'); simpl in Hk.
        -- left. rewrite Nat.add_0_r in Hk'. congruence.
        -- right. eauto.
    + rewrite Hrest. split.
      * intros (k & r' & Hk & Hk'). by exists (S k), r'.
      * intros ([|k] & r' & Hk & Hk'); simpl in Hk.
        -- rewrite Nat.add_0_r in Hk'. congruence.
        -- eauto.
Qed.

Lemma descriptorAt_id i r d : descriptorAt conv h i r = Some d → img_id d = imgId i.
Proof.
  unfold descriptorAt. destruct (h !! r) as [img|]; [|done].
  destruct (belowThreshold img); [done|].
  destruct (conv i (src img)); [|done]. by intros [= <-].
Qed.

Lemma emitted_ids_sublist l : ∀ i,
  img_id <$> emitted conv h i l `sublist_of` imgId <$> seq i (length l).
Proof.
  induction l as [|r l IH]; intros i; simpl; [constructor|].
  destruct (descriptorAt conv h i r) as [d|] eqn:Hd; simpl.
  - rewrite (descriptorAt_id _ _ _ Hd). by apply sublist_skip.
  - by apply sublist_cons.
Qed.

Lemma emitted_ids_NoDup l i : NoDup (img_id <$> emitted conv h i l).
Proof.
  eapply sublist_NoDup; [|apply emitted_ids_sublist].
  apply NoDup_fmap_2_strong; [|apply NoDup_seq].
  intros ?? _ _. apply imgId_inj.
Qed.

Lemma scanStep_map i r st key :
  scan_map (scanStep conv h i r st) !! key =
  if bool_decide (key = imgId i) && qualifies h r then Some r
  else scan_map st !! key.
Proof.
  unfold scanStep, qualifies.
  destruct (h !! r) as [img|]; [|by rewrite andb_false_r].
  destruct (belowThreshold img); simpl; [by rewrite andb_false_r|].
  rewrite andb_true_r.
  assert (<[imgId i:=r]> (scan_map st) !! key =
          if bool_decide (key = imgId i) then Some r else scan_map st !! key) as Hins.
  { case_bool_decide as Hk.
    - subst. by rewrite lookup_insert_eq.
    - by rewrite lookup_insert_ne. }
  by destruct (conv i (src img)).
Qed.

Lemma scanFrom_map l : ∀ i st key,
  scan_map (scanFrom conv h i l st) !! key =
  match registered h i l key with
  | Some r => Some r
  | None => scan_map st !! key
  end.
Proof.
  induction l as [|r l IH]; intros i st key; simpl; [done|].
  rewrite IH. destruct (registered h (S i) l key); [done|].
  rewrite scanStep_map. by destruct (_ && _).
Qed.

Lemma registered_Some_1 l : ∀ i key r,
  registered h i l key = Some r →
  ∃ k, l !! k = Some r ∧ qualifies h r = true ∧ key = imgId (i + k).
Proof.
  induction l as [|r0 l IH]; intros i key r; simpl; [done|].
  destruct (registered h (S i) l key) as [r'|] eqn:Hreg.
  - intros [= ->]. destruct (IH _ _ _ Hreg) as (k & Hk & Hq & ->).
    exists (S k). by rewrite Nat.add_succ_r.
  - destruct (bool_decide (key = imgId i)) eqn:Hb; simpl; [|done].
    destruct (qualifies h r0) eqn:Hq; [|done]. intros [= <-].
    apply bool_decide_eq_true in Hb. exists 0. by rewrite Nat.add_0_r.
Qed.

Lemma registered_Some_2 l : ∀ i k r,
  l !! k = Some r → qualifies h r = true →
  registered h i l (imgId (i + k)) = Some r.
Proof.
  induction l as [|r0 l IH]; intros i k r Hk Hq; simpl; [done|].
  destruct k as [|k]; simpl in Hk.
  - injection Hk as ->. rewrite Nat.add_0_r.
    destruct (registered h (S i) l (imgId i)) as [r'|] eqn:Hreg.
    + apply registered_Some_1 in Hreg as (k & _ & _ & Hid).
      apply imgId_inj in Hid. lia.
    + by rewrite bool_decide_eq_true_2, Hq.
  - replace (i + S k) with (S i + k) by lia.
    by rewrite (IH (S i) k r).
Qed.
End ScannerFacts.

Lemma qualifies_spec h r :
  qualifies h r = true ↔
  ∃ img, h !! r = Some img ∧ (50 < naturalWidth img)%N ∧ (50 < naturalHeight img)%N.
Proof.
  unfold qualifies, belowThreshold. destruct (h !! r) as [img|].
  - rewrite negb_true_iff, orb_false_iff, !N.leb_gt. split.
    + intros [??]. eauto.
    + by intros (? & [= <-] & ? & ?).
  - split; [done|]. by intros (? & ? & _).
Qed.

Lemma collectImageData_sent conv p :
  sent (collectImageData conv p) = sent p ++ [IMAGES_FOUND (scanned conv p)].
Proof. unfold collectImageData, scanned. simpl. by rewrite scanFrom_results. Qed.

Lemma collectImageData_map conv p key :
  imageReferenceMap (collectImageData conv p) !! key =
  match registered (heap p) 0 (document p) key with
  | Some r => Some r
  | None => imageReferenceMap p !! key
  end.
Proof. unfold collectImageData. simpl. by rewrite scanFrom_map. Qed.

(** With iteration [k] producing nothing, the sequence is the one of a run
    in which it succeeds, less the descriptor of [k]. *)
Lemma emitted_settleAt conv h k o l : ∀ i,
  (∀ j r, l !! j = Some r → i + j = k → descriptorAt conv h k r = None) →
  emitted conv h i l =
  filter (λ d, img_id d ≠ imgId k) (emitted (settleAt conv k o) h i l).
Proof.
  induction l as [|r l IH]; intros i Hk; simpl; [done|].
  assert (Hrest : emitted conv h (S i) l =
            filter (λ d, img_id d ≠ imgId k) (emitted (settleAt conv k o) h (S i) l)).
  { apply IH. intros j r' Hj Hij. apply (Hk (S j) r'); [done|lia]. }
  destruct (decide (i = k)) as [->|Hne].
  - rewrite (Hk 0 r) by (done || lia).
    destruct (descriptorAt (settleAt conv k o) h k r) as [d|] eqn:Hd; [|done].
    rewrite filter_cons_False; [done|].
    intros Hid. apply Hid. by eapply descriptorAt_id.
  - assert (Hsame : descriptorAt (settleAt conv k o) h i r = descriptorAt conv h i r).
    { unfold descriptorAt, settleAt. destruct (h !! r) as [img|]; [|done].
      destruct (belowThreshold img); [done|]. by rewrite decide_False. }
    rewrite Hsame. destruct (descriptorAt conv h i r) as [d|] eqn:Hd; [|done].
    rewrite filter_cons_True.
    + by rewrite Hrest.
    + rewrite (descriptorAt_id _ _ _ _ _ Hd). intros ?%imgId_inj. done.
Qed.

Lemma descriptorAt_Some conv h i r d :
  descriptorAt conv h i r = Some d ↔
  ∃ img, h !! r = Some img ∧ (50 < naturalWidth img)%N ∧ (50 < naturalHeight img)%N ∧
         conv i (src img) = Fulfilled (img_data d) ∧ img_id d = imgId i.
Proof.
  unfold descriptorAt, belowThreshold. destruct (h !! r) as [img|].
  - destruct (naturalWidth img <=? 50)%N eqn:Hw; simpl.
    { split; [done|]. intros (? & [= <-] & ? & _). apply N.leb_le in Hw. lia. }
    destruct (naturalHeight img <=? 50)%N eqn:Hh; simpl.
    { split; [done|]. intros (? & [= <-] & _ & ? & _). apply N.leb_le in Hh. lia. }
    apply N.leb_gt in Hw, Hh. split.
    + destruct (conv i (src img)) as [b|] eqn:Hc; [|done]. intros [= <-].
      exists img. done.
    + intros (? & [= <-] & _ & _ & Hc & Hid). rewrite Hc.
      destruct d as [di dd]; simpl in *. by rewrite Hid.
  - split; [done|]. by intros (? & ? & _).
Qed.

(** C2, as stated, fails when a conversion is rejected: the one image of the
    page is 100x100, its conversion fails, and the sequence sent is empty. *)
Lemma scanner_omits_rejected_image :
  document oneImagePage !! 0%nat = Some 0%nat ∧
  heap oneImagePage !! 0%nat = Some (mkImg 100 100 "a.png") ∧
  (50 < 100)%N ∧
  sent (collectImageData offline oneImagePage) = [IMAGES_FOUND []].
Proof. repeat split; vm_compute; reflexivity. Qed.

(** C2 (amended): for every document, the scanner sends exactly one
    descriptor, with a unique id of the form "img-" + index, for each image
    element whose width and height both exceed 50 and whose awaited
    conversion is fulfilled, carrying what it is fulfilled with, and none for
    an image whose conversion is rejected; images at or below the threshold
    in either dimension never appear. For three images of 100x100, 30x30 and
    60x60 whose conversions are fulfilled it sends exactly the descriptors
    img-0 and img-2. *)
Theorem scanner_descriptors conv p :
  ∃ images,
    sent (collectImageData conv p) = sent p ++ [IMAGES_FOUND images] ∧
    NoDup (img_id <$> images) ∧
    (∀ d, d ∈ images ↔
       ∃ i r img,
         document p !! i = Some r ∧ heap p !! r = Some img ∧
         (50 < naturalWidth img)%N ∧ (50 < naturalHeight img)%N ∧
         conv i (src img) = Fulfilled (img_data d) ∧ img_id d = imgId i) ∧
    (∀ enc m s0 s1 s2,
       sent (collectImageData (λ i s, Fulfilled (enc i s))
               (mkPage m (threeImages s0 s1 s2) [0; 1; 2]%nat [] []))
       = [IMAGES_FOUND [mkDescriptor "img-0" (enc 0%nat s0);
                        mkDescriptor "img-2" (enc 2%nat s2)]]).
Proof.
  exists (scanned conv p). split; [apply collectImageData_sent|].
  split; [apply emitted_ids_NoDup|]. split.
  - intros d. unfold scanned. rewrite elem_of_emitted. simpl. split.
    + intros (k & r & Hk & Hd). apply descriptorAt_Some in Hd as (img & ? & ? & ? & ? & ?).
      exists k, r, img. done.
    + intros (i & r & img & Hi & Hr & ? & ? & ? & ?). exists i, r.
      split; [done|]. apply descriptorAt_Some. eauto 10.
  - intros enc m s0 s1 s2. reflexivity.
Qed.

(** Failure isolation for a rejected conversion (a failed fetch or body
    read): the scanner still sends exactly one message; its sequence has no
    descriptor for the failed image, holds the descriptor of every other
    qualifying image whose conversion is fulfilled, and is the sequence of
    the run in which the failed conversion is fulfilled less that one
    entry. *)
Theorem scanner_isolates_failure conv p k r img :
  document p !! k = Some r →
  heap p !! r = Some img →
  (50 < naturalWidth img)%N →
  (50 < naturalHeight img)%N →
  conv k (src img) = Rejected →
  ∃ images,
    sent (collectImageData conv p) = sent p ++ [IMAGES_FOUND images] ∧
    (∀ d, d ∈ images → img_id d ≠ imgId k) ∧
    (∀ i r' img' base64,
       i ≠ k →
       document p !! i = Some r' → heap p !! r' = Some img' →
       (50 < naturalWidth img')%N → (50 < naturalHeight img')%N →
       conv i (src img') = Fulfilled base64 →
       mkDescriptor (imgId i) base64 ∈ images) ∧
    (∀ base64,
       ∃ images',
         sent (collectImageData (settleAt conv k (Fulfilled base64)) p)
           = sent p ++ [IMAGES_FOUND images'] ∧
         mkDescriptor (imgId k) base64 ∈ images' ∧
         images = filter (λ d, img_id d ≠ imgId k) images').
Proof.
  intros Hk Hr Hw Hh Hrej.
  assert (Hnone : ∀ j r0, document p !! j = Some r0 → 0 + j = k →
            descriptorAt conv (heap p) k r0 = None).
  { intros j r0 Hj <-. simpl in *. assert (r0 = r) as -> by congruence.
    unfold descriptorAt. rewrite Hr. destruct (belowThreshold img); [done|].
    by rewrite Hrej. }
  exists (scanned conv p). split; [apply collectImageData_sent|].
  split; [|split].
  - intros d Hd Hid. unfold scanned in Hd.
    apply elem_of_emitted in Hd as (j & r0 & Hj & Hd). simpl in Hd.
    pose proof (descriptorAt_id _ _ _ _ _ Hd) as Hid'.
    rewrite Hid in Hid'. apply imgId_inj in Hid'. subst j.
    rewrite (Hnone k r0) in Hd; done.
  - intros i r' img' b _ Hi Hr' Hw' Hh' Hc. unfold scanned.
    apply elem_of_emitted. exists i, r'. split; [done|]. simpl.
    apply descriptorAt_Some. exists img'. done.
  - intros b. exists (scanned (settleAt conv k (Fulfilled b)) p).
    split; [apply collectImageData_sent|]. split.
    + unfold scanned. apply elem_of_emitted. exists k, r. split; [done|]. simpl.
      apply descriptorAt_Some. exists img. unfold settleAt.
      by rewrite decide_True.
    + unfold scanned. by apply emitted_settleAt.
Qed.

Lemma scanner_isolates_failure_witness :
  ∃ images,
    sent (collectImageData (settleAt dataUrl 0 Rejected) examplePage)
      = sent examplePage ++ [IMAGES_FOUND images] ∧
    (∀ d, d ∈ images → img_id d ≠ imgId 0) ∧
    (∀ i r' img' base64,
       i ≠ 0%nat →
       document examplePage !! i = Some r' → heap examplePage !! r' = Some img' →
       (50 < naturalWidth img')%N → (50 < naturalHeight img')%N →
       settleAt dataUrl 0 Rejected i (src img') = Fulfilled base64 →
       mkDescriptor (imgId i) base64 ∈ images) ∧
    (∀ base64,
       ∃ images',
         sent (collectImageData
                 (settleAt (settleAt dataUrl 0 Rejected) 0 (Fulfilled base64))
                 examplePage)
           = sent examplePage ++ [IMAGES_FOUND images'] ∧
         mkDescriptor (imgId 0) base64 ∈ images' ∧
         images = filter (λ d, img_id d ≠ imgId 0) images').
Proof.
  apply (scanner_isolates_failure (settleAt dataUrl 0 Rejected) examplePage
           0%nat 0%nat (mkImg 100 100 "a.png")).
  - reflexivity.
  - vm_compute; reflexivity.
  - simpl; lia.
  - simpl; lia.
  - reflexivity.
Defined.

(** C4, as stated, fails: after a first cycle on three images, a second
    cycle that finds no image at all starts with the entries of the first
    cycle in the map and ends with them still there. *)
Lemma reference_map_keeps_earlier_entries :
  let p1 := contentOnMessage dataUrl START_TRANSLATION examplePage in
  let p2 := mkPage (imageReferenceMap p1) (heap p1) [] (sent p1) (console p1) in
  let p3 := contentOnMessage dataUrl START_TRANSLATION p2 in
  imageReferenceMap p2 !! "img-0" = Some 0%nat ∧
  imageReferenceMap p2 !! "img-2" = Some 2%nat ∧
  imageReferenceMap p3 !! "img-0" = Some 0%nat ∧
  imageReferenceMap p3 !! "img-2" = Some 2%nat ∧
  imageReferenceMap p2 ≠ ∅.
Proof.
  cbv zeta. repeat split; try (vm_compute; reflexivity).
  intros Hempty. apply (f_equal (λ m, m !! "img-0")) in Hempty.
  vm_compute in Hempty. discriminate.
Qed.

(** C4 (amended): a collection cycle does not rebuild the reference map. It
    assigns the key "img-" + index of every above-threshold image of the
    current document and leaves every other entry as it was, so the entries
    of earlier cycles stay in the map, overwritten where the same id is
    generated again. *)
Theorem reference_map_accumulates conv p :
  let p' := collectImageData conv p in
  (∀ key,
     imageReferenceMap p' !! key =
     match registered (heap p) 0 (document p) key with
     | Some r => Some r
     | None => imageReferenceMap p !! key
     end) ∧
  (∀ key r,
     registered (heap p) 0 (document p) key = Some r ↔
     ∃ i img,
       document p !! i = Some r ∧ heap p !! r = Some img ∧
       (50 < naturalWidth img)%N ∧ (50 < naturalHeight img)%N ∧
       key = imgId i) ∧
  dom (imageReferenceMap p) ⊆ dom (imageReferenceMap p').
Proof.
  cbv zeta. split; [|split].
  - apply collectImageData_map.
  - intros key r. split.
    + intros (i & Hi & Hq & ->)%registered_Some_1.
      apply qualifies_spec in Hq as (img & ? & ? & ?). exists i, img. done.
    + intros (i & img & Hi & Hr & Hw & Hh & ->).
      apply (registered_Some_2 (heap p) (document p) 0 i r Hi).
      apply qualifies_spec. eauto.
  - intros key. rewrite !elem_of_dom, collectImageData_map.
    by destruct (registered _ _ _ _).
Qed.

(** C9: the scanner assigns the map entry before it awaits the conversion,
    so every above-threshold image has its entry whatever the conversion
    settles to; the ids of the sequence sent are keys of the map, and the key
    set can be strictly larger, as for a page whose one image fails to
    convert. *)
Theorem scanner_registers_before_fetch :
  (∀ conv p i r img,
     document p !! i = Some r → heap p !! r = Some img →
     (50 < naturalWidth img)%N → (50 < naturalHeight img)%N →
     imageReferenceMap (collectImageData conv p) !! imgId i = Some r) ∧
  (∀ conv p images,
     sent (collectImageData conv p) = sent p ++ [IMAGES_FOUND images] →
     list_to_set (img_id <$> images) ⊆@{gset string}
       dom (imageReferenceMap (collectImageData conv p))) ∧
  sent (collectImageData offline oneImagePage) = [IMAGES_FOUND []] ∧
  imageReferenceMap (collectImageData offline oneImagePage) !! "img-0" = Some 0%nat ∧
  list_to_set (img_id <$> []) ⊂@{gset string}
    dom (imageReferenceMap (collectImageData offline oneImagePage)).
Proof.
  assert (Hreg : ∀ conv p i r img,
     document p !! i = Some r → heap p !! r = Some img →
     (50 < naturalWidth img)%N → (50 < naturalHeight img)%N →
     imageReferenceMap (collectImageData conv p) !! imgId i = Some r).
  { intros conv p i r img Hi Hr Hw Hh. rewrite collectImageData_map.
    assert (Hq : qualifies (heap p) r = true) by (apply qualifies_spec; eauto).
    pose proof (registered_Some_2 (heap p) (document p) 0 i r Hi Hq) as Hk.
    simpl in Hk. by rewrite Hk. }
  assert (Hentry : imageReferenceMap (collectImageData offline oneImagePage) !! "img-0"
                   = Some 0%nat) by (vm_compute; reflexivity).
  split; [exact Hreg|]. split; [|split; [|split]].
  - intros conv p images Hsent. rewrite collectImageData_sent in Hsent.
    apply (inj (app (sent p))) in Hsent. injection Hsent as <-.
    intros key. rewrite elem_of_list_to_set, list_elem_of_fmap.
    intros (d & -> & Hd). unfold scanned in Hd.
    apply elem_of_emitted in Hd as (i & r & Hi & Hd). simpl in Hd.
    rewrite (descriptorAt_id _ _ _ _ _ Hd).
    apply descriptorAt_Some in Hd as (img & Hr & Hw & Hh & _ & _).
    apply elem_of_dom. rewrite (Hreg conv p i r img); done.
  - vm_compute; reflexivity.
  - exact Hentry.
  - split; [set_solver|]. intros Hsub.
    assert (Hin : "img-0" ∈ dom (imageReferenceMap (collectImageData offline oneImagePage))).
    { apply elem_of_dom. by rewrite Hentry. }
    apply Hsub in Hin. set_solver.
Qed.

Lemma scanner_registers_before_fetch_witness :
  imageReferenceMap (collectImageData offline examplePage) !! imgId 2 = Some 2%nat.
Proof.
  apply (proj1 scanner_registers_before_fetch offline examplePage 2%nat 2%nat
           (mkImg 60 60 "c.png")).
  - reflexivity.
  - vm_compute; reflexivity.
  - simpl; lia.
  - simpl; lia.
Defined.

(** * Properties of the relay *)

(** A network error is caught: the request is made, the error is logged and
    nothing is sent to the tab. *)
Lemma relay_swallows_network_error server images tabId :
  images ≠ [] →
  server images = NetworkError →
  sendImagesToPythonServer server images tabId =
    [Fetch endpoint images; ConsoleErrorServer].
Proof.
  intros Hne Hs. unfold sendImagesToPythonServer. rewrite Hs.
  by destruct images.
Qed.

(** So is a body that is not JSON, whatever the status. *)
Lemma relay_swallows_malformed_body server images tabId response :
  images ≠ [] →
  server images = Responds response →
  json response = None →
  sendImagesToPythonServer server images tabId =
    [Fetch endpoint images; ConsoleErrorServer].
Proof.
  intros Hne Hs Hj. unfold sendImagesToPythonServer. rewrite Hs, Hj.
  by destruct images.
Qed.

(** A response with a JSON body is forwarded; its status is never read. *)
Lemma relay_forwards_json_body server images tabId response translatedImages :
  images ≠ [] →
  server images = Responds response →
  json response = Some translatedImages →
  sendImagesToPythonServer server images tabId =
    [Fetch endpoint images; TabsSendMessage tabId (REPLACE_IMAGES translatedImages)].
Proof.
  intros Hne Hs Hj. unfold sendImagesToPythonServer. rewrite Hs, Hj.
  by destruct images.
Qed.

(** C3: the relay at a request the server answers with status 500 and the
    JSON body [[]]. The response is not ok, and the relay sends a
    REPLACE_IMAGES message to the originating tab all the same. *)
Theorem relay_forwards_non_2xx_response :
  let response := mkResponse 500 (Some []) in
  let images := [mkDescriptor "img-0" (JString "data:a.png")] in
  let effects := sendImagesToPythonServer (λ _, Responds response) images 7 in
  ok response = false ∧
  effects = [Fetch endpoint images; TabsSendMessage 7 (REPLACE_IMAGES [])] ∧
  filter isReplaceImages effects ≠ [].
Proof. cbv zeta. split; [reflexivity|]. split; [reflexivity|]. vm_compute. discriminate. Qed.

(** C6: for an empty descriptor sequence the relay does nothing at all, so
    no request goes to the processing endpoint, also when the sequence
    arrives through the message listener. *)
Theorem relay_empty_sequence_no_request server tabId :
  sendImagesToPythonServer server [] tabId = [] ∧
  filter isFetch (sendImagesToPythonServer server [] tabId) = [] ∧
  filter isFetch (backgroundOnMessage server (IMAGES_FOUND []) tabId) = [].
Proof. repeat split. Qed.

(** * Further properties of the DOM updater *)

Lemma forEach_app {A S : Type} (f : A → S → S) (l1 l2 : list A) (s : S) :
  forEach f (l1 ++ l2) s = forEach f l2 (forEach f l1 s).
Proof. revert s. induction l1 as [|x l1 IH]; intros s; simpl; [done|apply IH]. Qed.

Lemma writeOf_target m item r :
  is_Some (writeOf m item r) ↔ target m item = Some r.
Proof.
  unfold writeOf, target. destruct (truthy (translatedData item)).
  - destruct (decide (m !! res_id item = Some r)) as [->|Hne].
    + split; [done|]. by eexists.
    + split; [by intros [? ?]|done].
  - destruct (decide _); split; (done || by intros [? ?]).
Qed.

Lemma writeOf_no_target m item r :
  target m item ≠ Some r → writeOf m item r = None.
Proof.
  intros Hne. destruct (writeOf m item r) eqn:Hw; [|done].
  exfalso. apply Hne, writeOf_target. by eexists.
Qed.

(** X2: An element that no entry with truthy data resolves to keeps its source,
    whatever else the sequence writes. *)
Theorem replaceImages_keeps_untargeted translatedImages p r :
  (∀ item, item ∈ translatedImages →
     truthy (translatedData item) = true →
     imageReferenceMap p !! res_id item ≠ Some r) →
  heap (replaceImages translatedImages p) !! r = heap p !! r ∧
  srcOf (replaceImages translatedImages p) r = srcOf p r.
Proof.
  intros Hno.
  assert (H : heap (replaceImages translatedImages p) !! r = heap p !! r).
  { simpl. rewrite forEach_replaceItem_lookup, lastWrite_none; [done|].
    intros item Hin. apply writeOf_no_target. unfold target.
    destruct (truthy (translatedData item)) eqn:Ht; [|done].
    by apply Hno. }
  split; [done|]. unfold srcOf. by rewrite H.
Qed.

Lemma replaceImages_keeps_untargeted_witness :
  srcOf (replaceImages [mkResult "img-0" (JString "X"); mkResult "img-2" JNull]
           (collectImageData dataUrl examplePage)) 2%nat
  = srcOf (collectImageData dataUrl examplePage) 2%nat.
Proof.
  apply (replaceImages_keeps_untargeted
           [mkResult "img-0" (JString "X"); mkResult "img-2" JNull]
           (collectImageData dataUrl examplePage) 2%nat).
  intros item Hin Ht.
  apply elem_of_cons in Hin as [->|Hin].
  - vm_compute. discriminate.
  - apply list_elem_of_singleton in Hin as ->. vm_compute in Ht. discriminate.
Defined.

(** X3: Results delivered in two messages leave the elements as the same results
    delivered in one. *)
Theorem replaceImages_split l1 l2 p :
  heap (replaceImages (l1 ++ l2) p) = heap (replaceImages l2 (replaceImages l1 p)) ∧
  imageReferenceMap (replaceImages (l1 ++ l2) p)
    = imageReferenceMap (replaceImages l2 (replaceImages l1 p)).
Proof. simpl. by rewrite forEach_app. Qed.

Lemma lastWrite_Permutation m l l' r :
  l ≡ₚ l' → NoDup (omap (target m) l) → lastWrite m l r = lastWrite m l' r.
Proof.
  induction 1 as [|x l l' Hp IH|x y l|l l' l'' Hp1 IH1 Hp2 IH2]; intros Hnd.
  - done.
  - simpl. rewrite IH; [done|]. simpl in Hnd.
    destruct (target m x); [by apply NoDup_cons in Hnd as [_ ?]|done].
  - simpl. destruct (lastWrite m l r); [done|].
    destruct (writeOf m x r) as [sx|] eqn:Hx, (writeOf m y r) as [sy|] eqn:Hy; try done.
    exfalso.
    assert (Htx : target m x = Some r) by (apply writeOf_target; by eexists).
    assert (Hty : target m y = Some r) by (apply writeOf_target; by eexists).
    simpl in Hnd. rewrite Htx, Hty in Hnd.
    apply NoDup_cons in Hnd as [Hnin _]. apply Hnin. by left.
  - rewrite IH1 by done. apply IH2. by rewrite <- Hp1.
Qed.

(** X4: When no two entries write the same element, the order of the sequence
    does not matter: every reordering leaves the same elements. *)
Theorem replaceImages_order_irrelevant l l' p :
  l ≡ₚ l' →
  NoDup (omap (target (imageReferenceMap p)) l) →
  heap (replaceImages l p) = heap (replaceImages l' p).
Proof.
  intros Hp Hnd. simpl. apply map_eq. intros r.
  rewrite !forEach_replaceItem_lookup.
  by rewrite (lastWrite_Permutation _ l l' r Hp Hnd).
Qed.

Lemma replaceImages_order_irrelevant_witness :
  heap (replaceImages [mkResult "img-0" (JString "X"); mkResult "img-2" (JString "Y")]
          (collectImageData dataUrl examplePage))
  = heap (replaceImages [mkResult "img-2" (JString "Y"); mkResult "img-0" (JString "X")]
            (collectImageData dataUrl examplePage)).
Proof.
  apply (replaceImages_order_irrelevant
           [mkResult "img-0" (JString "X"); mkResult "img-2" (JString "Y")]
           [mkResult "img-2" (JString "Y"); mkResult "img-0" (JString "X")]
           (collectImageData dataUrl examplePage)).
  - apply perm_swap.
  - vm_compute. apply NoDup_cons. split.
    + intros Hin. apply list_elem_of_singleton in Hin. discriminate.
    + apply NoDup_singleton.
Defined.

(** * Further properties of the scanner *)

Section ScannerMore.
Variable conv : nat → string → Settled.
Variable h : gmap ElemRef HTMLImageElement.

Lemma scanStep_console i r st :
  scan_console (scanStep conv h i r st) =
  scan_console st ++ option_list (errorAt conv h i r).
Proof.
  unfold scanStep, errorAt.
  destruct (h !! r) as [img|]; simpl; [|by rewrite app_nil_r].
  destruct (belowThreshold img); simpl; [by rewrite app_nil_r|].
  destruct (conv i (src img)); simpl; [by rewrite app_nil_r|done].
Qed.

Lemma scanFrom_console l : ∀ i st,
  scan_console (scanFrom conv h i l st) = scan_console st ++ logged conv h i l.
Proof.
  induction l as [|r l IH]; intros i st; simpl.
  - by rewrite app_nil_r.
  - rewrite IH, scanStep_console.
    destruct (errorAt conv h i r); simpl.
    + by rewrite <- app_assoc.
    + by rewrite app_nil_r.
Qed.

Lemma elem_of_logged l : ∀ i e,
  e ∈ logged conv h i l ↔
  ∃ k r, l !! k = Some r ∧ errorAt conv h (i + k) r = Some e.
Proof.
  induction l as [|r l IH]; intros i e; simpl.
  - split; [by intros ?%elem_of_nil|]. by intros (k & r & ? & _).
  - assert (Hrest : e ∈ logged conv h (S i) l ↔
              ∃ k r', l !! k = Some r' ∧ errorAt conv h (i + S k) r' = Some e).
    { rewrite IH. by setoid_rewrite Nat.add_succ_r. }
    destruct (errorAt conv h i r) as [e0|] eqn:He.
    + rewrite elem_of_cons, Hrest. split.
      * intros [->|(k & r' & Hk & Hk')].
        -- exists 0, r. by rewrite Nat.add_0_r.
        -- by exists (S k), r'.
      * intros ([|k] & r' & Hk & Hk'); simpl in Hk.
        -- left. rewrite Nat.add_0_r in Hk'. congruence.
        -- right. eauto.
    + rewrite Hrest. split.
      * intros (k & r' & Hk & Hk'). by exists (S k), r'.
      * intros ([|k] & r' & Hk & Hk'); simpl in Hk.
        -- rewrite Nat.add_0_r in Hk'. congruence.
        -- eauto.
Qed.

Lemma errorAt_Some i r e :
  errorAt conv h i r = Some e ↔
  ∃ img, h !! r = Some img ∧ (50 < naturalWidth img)%N ∧ (50 < naturalHeight img)%N ∧
         conv i (src img) = Rejected ∧ e = ErrorConvertingImage (src img).
Proof.
  unfold errorAt, belowThreshold. destruct (h !! r) as [img|].
  - destruct (naturalWidth img <=? 50)%N eqn:Hw; simpl.
    { split; [done|]. intros (? & [= <-] & ? & _). apply N.leb_le in Hw. lia. }
    destruct (naturalHeight img <=? 50)%N eqn:Hh; simpl.
    { split; [done|]. intros (? & [= <-] & _ & ? & _). apply N.leb_le in Hh. lia. }
    apply N.leb_gt in Hw, Hh. split.
    + destruct (conv i (src img)) eqn:Hc; [done|]. intros [= <-].
      exists img. done.
    + intros (? & [= <-] & _ & _ & Hc & ->). by rewrite Hc.
  - split; [done|]. by intros (? & ? & _).
Qed.

(** Each element above the threshold gives one descriptor or one console
    entry, and no other element gives either. *)
Lemma emitted_logged_length l : ∀ i,
  length (emitted conv h i l) + length (logged conv h i l) =
  length (filter (λ r, qualifies h r = true) l).
Proof.
  induction l as [|r l IH]; intros i; simpl; [done|].
  specialize (IH (S i)).
  unfold descriptorAt, errorAt, qualifies in *.
  destruct (h !! r) as [img|] eqn:Hr.
  - destruct (belowThreshold img) eqn:Hb; simpl.
    + rewrite filter_cons_False; [done|]. by rewrite Hr, Hb.
    + rewrite filter_cons_True by (by rewrite Hr, Hb).
      destruct (conv i (src img)); simpl; lia.
  - rewrite filter_cons_False; [done|]. by rewrite Hr.
Qed.

Lemma scanFrom_nothing_qualifies l : ∀ i st,
  (∀ r, r ∈ l → qualifies h r = false) → scanFrom conv h i l st = st.
Proof.
  induction l as [|r l IH]; intros i st Hq; simpl; [done|].
  assert (Hstep : scanStep conv h i r st = st).
  { specialize (Hq r (list_elem_of_here _ _)). unfold scanStep, qualifies in *.
    destruct (h !! r) as [img|]; [|done].
    destruct (belowThreshold img); [done|discriminate]. }
  rewrite Hstep. apply IH. intros r' Hr'. apply Hq. by right.
Qed.

(** The descriptors come in the order of their indices. *)
Lemma emitted_increasing l : ∀ i j1 j2 d1 d2,
  emitted conv h i l !! j1 = Some d1 →
  emitted conv h i l !! j2 = Some d2 →
  j1 < j2 →
  ∃ k1 k2, k1 < k2 ∧ k2 < length l ∧
           img_id d1 = imgId (i + k1) ∧ img_id d2 = imgId (i + k2).
Proof.
  induction l as [|r l IH]; intros i j1 j2 d1 d2 H1 H2 Hlt; simpl in *; [done|].
  assert (Hshift : ∀ j1' j2', emitted conv h (S i) l !! j1' = Some d1 →
            emitted conv h (S i) l !! j2' = Some d2 → j1' < j2' →
            ∃ k1 k2, k1 < k2 ∧ k2 < S (length l) ∧
                     img_id d1 = imgId (i + k1) ∧ img_id d2 = imgId (i + k2)).
  { intros j1' j2' H1' H2' Hlt'.
    destruct (IH (S i) j1' j2' d1 d2 H1' H2' Hlt') as (k1 & k2 & ? & ? & E1 & E2).
    exists (S k1), (S k2). rewrite !Nat.add_succ_r.
    split; [lia|]. split; [lia|]. done. }
  destruct (descriptorAt conv h i r) as [d|] eqn:Hd; [|by eapply Hshift].
  destruct j2 as [|j2]; [lia|]. simpl in H2.
  destruct j1 as [|j1]; simpl in H1.
  - injection H1 as ->.
    assert (Hin : d2 ∈ emitted conv h (S i) l) by (by eapply list_elem_of_lookup_2).
    apply elem_of_emitted in Hin as (k & r' & Hk & Hd2).
    exists 0, (S k). rewrite Nat.add_0_r, Nat.add_succ_r.
    split; [lia|]. split; [apply lookup_lt_Some in Hk; lia|].
    split; by eapply descriptorAt_id.
  - apply (Hshift j1 j2); [done|done|lia].
Qed.
End ScannerMore.

(** X5: The descriptors of a run are sent in document order: their ids follow
    the indices of the node list, each later one with a larger index. *)
Theorem scanner_keeps_document_order conv p :
  ∃ images,
    sent (collectImageData conv p) = sent p ++ [IMAGES_FOUND images] ∧
    img_id <$> images `sublist_of` imgId <$> seq 0 (length (document p)) ∧
    (∀ j1 j2 d1 d2,
       images !! j1 = Some d1 → images !! j2 = Some d2 → j1 < j2 →
       ∃ i1 i2, i1 < i2 ∧ i2 < length (document p) ∧
                img_id d1 = imgId i1 ∧ img_id d2 = imgId i2).
Proof.
  exists (scanned conv p). split; [apply collectImageData_sent|]. split.
  - apply emitted_ids_sublist.
  - intros j1 j2 d1 d2 H1 H2 Hlt.
    apply (emitted_increasing conv (heap p) (document p) 0 j1 j2 d1 d2 H1 H2 Hlt).
Qed.

(** X6: Every image above the threshold is accounted for once: the run sends
    its descriptor or logs an error with its source, the console grows by
    these errors only, and they are the rejected conversions. *)
Theorem scanner_descriptor_or_error conv p :
  ∃ images errors,
    sent (collectImageData conv p) = sent p ++ [IMAGES_FOUND images] ∧
    console (collectImageData conv p) = console p ++ errors ∧
    length images + length errors =
      length (filter (λ r, qualifies (heap p) r = true) (document p)) ∧
    (∀ e, e ∈ errors ↔
       ∃ i r img,
         document p !! i = Some r ∧ heap p !! r = Some img ∧
         (50 < naturalWidth img)%N ∧ (50 < naturalHeight img)%N ∧
         conv i (src img) = Rejected ∧ e = ErrorConvertingImage (src img)).
Proof.
  exists (scanned conv p), (logged conv (heap p) 0 (document p)).
  split; [apply collectImageData_sent|]. split; [|split].
  - unfold collectImageData. simpl. by rewrite scanFrom_console.
  - apply emitted_logged_length.
  - intros e. rewrite elem_of_logged. simpl. split.
    + intros (k & r & Hk & He). apply errorAt_Some in He as (img & ? & ? & ? & ? & ?).
      exists k, r, img. done.
    + intros (i & r & img & Hi & Hr & ? & ? & ? & ?). exists i, r.
      split; [done|]. apply errorAt_Some. exists img. done.
Qed.

(** X7: When every image of the document is at most 50 wide or at most 50 high,
    a run converts nothing and registers nothing: the map and the console
    stay as they are and the message sent carries the empty sequence. *)
Theorem scanner_nothing_above_threshold conv p :
  (∀ r img, r ∈ document p → heap p !! r = Some img →
     (naturalWidth img ≤ 50)%N ∨ (naturalHeight img ≤ 50)%N) →
  collectImageData conv p =
    mkPage (imageReferenceMap p) (heap p) (document p)
           (sent p ++ [IMAGES_FOUND []]) (console p).
Proof.
  intros Hsmall. unfold collectImageData.
  rewrite scanFrom_nothing_qualifies; [done|].
  intros r Hr. unfold qualifies, belowThreshold.
  destruct (heap p !! r) as [img|] eqn:Himg; [|done].
  destruct (Hsmall r img Hr Himg) as [H|H]; apply N.leb_le in H; rewrite H.
  - done.
  - by rewrite orb_true_r.
Qed.

Lemma scanner_nothing_above_threshold_witness :
  collectImageData dataUrl narrowImagePage =
    mkPage (imageReferenceMap narrowImagePage) (heap narrowImagePage)
           (document narrowImagePage)
           (sent narrowImagePage ++ [IMAGES_FOUND []]) (console narrowImagePage).
Proof.
  apply (scanner_nothing_above_threshold dataUrl narrowImagePage).
  intros r img Hr Himg.
  apply list_elem_of_singleton in Hr as ->.
  vm_compute in Himg. injection Himg as <-. left. simpl. lia.
Defined.

(** X8: A second run over the same document leaves the reference map of the
    first, whatever the conversions settle to; with the same outcomes it
    sends the same sequence again. *)
Theorem rescan_keeps_reference_map conv conv' p :
  imageReferenceMap (collectImageData conv' (collectImageData conv p))
    = imageReferenceMap (collectImageData conv p) ∧
  ∃ images,
    sent (collectImageData conv p) = sent p ++ [IMAGES_FOUND images] ∧
    sent (collectImageData conv (collectImageData conv p))
      = sent p ++ [IMAGES_FOUND images; IMAGES_FOUND images].
Proof.
  split.
  - apply map_eq. intros key. rewrite (collectImageData_map conv').
    change (heap (collectImageData conv p)) with (heap p).
    change (document (collectImageData conv p)) with (document p).
    rewrite collectImageData_map.
    by destruct (registered (heap p) 0 (document p) key).
  - exists (scanned conv p). split; [apply collectImageData_sent|].
    rewrite collectImageData_sent, collectImageData_sent.
    by rewrite <- app_assoc.
Qed.

(** * Further properties of the relay *)

(** X9: For a sequence that is not empty the relay makes exactly one request,
    to the processing endpoint and with the sequence as it received it, and
    then does exactly one more thing: it logs an error, or it sends one
    REPLACE_IMAGES message to the tab it was given. *)
Theorem relay_one_request_one_outcome server images tabId :
  images ≠ [] →
  ∃ outcome,
    sendImagesToPythonServer server images tabId = [Fetch endpoint images; outcome] ∧
    isFetch outcome = false ∧
    (outcome = ConsoleErrorServer ∨
     ∃ translatedImages, outcome = TabsSendMessage tabId (REPLACE_IMAGES translatedImages)).
Proof.
  intros Hne. unfold sendImagesToPythonServer.
  destruct images as [|d images]; [done|]. simpl.
  destruct (server (d :: images)) as [|response].
  - exists ConsoleErrorServer. eauto.
  - destruct (json response) as [tr|].
    + exists (TabsSendMessage tabId (REPLACE_IMAGES tr)). eauto.
    + exists ConsoleErrorServer. eauto.
Qed.

Lemma relay_one_request_one_outcome_witness :
  ∃ outcome,
    sendImagesToPythonServer (λ _, NetworkError) [mkDescriptor "img-0" (JString "data:a")] 7
      = [Fetch endpoint [mkDescriptor "img-0" (JString "data:a")]; outcome] ∧
    isFetch outcome = false ∧
    (outcome = ConsoleErrorServer ∨
     ∃ translatedImages, outcome = TabsSendMessage 7 (REPLACE_IMAGES translatedImages)).
Proof.
  apply (relay_one_request_one_outcome (λ _, NetworkError)
           [mkDescriptor "img-0" (JString "data:a")] 7).
  discriminate.
Defined.

(** X10: The background listener sends a message to a tab in one case only: the
    request is IMAGES_FOUND with a sequence that is not empty and the server
    answers with a JSON body. The message then goes to the sender's tab and
    is REPLACE_IMAGES with the parsed body as it is; the status of the
    response plays no part. *)
Theorem background_sends_only_results server request tabId t msg :
  TabsSendMessage t msg ∈ backgroundOnMessage server request tabId ↔
  t = tabId ∧
  ∃ images response translatedImages,
    request = IMAGES_FOUND images ∧ images ≠ [] ∧
    server images = Responds response ∧
    json response = Some translatedImages ∧
    msg = REPLACE_IMAGES translatedImages.
Proof.
  split.
  - destruct request as [|images|tr]; simpl; try by intros ?%elem_of_nil.
    rewrite elem_of_cons. intros [Heq|Hin]; [discriminate|].
    unfold sendImagesToPythonServer in Hin.
    destruct images as [|d images]; simpl in Hin; [by apply elem_of_nil in Hin|].
    apply elem_of_cons in Hin as [Heq|Hin]; [discriminate|].
    destruct (server (d :: images)) as [|response] eqn:Hs.
    + apply list_elem_of_singleton in Hin. discriminate.
    + destruct (json response) as [tr|] eqn:Hj.
      * apply list_elem_of_singleton in Hin. injection Hin as -> ->.
        split; [done|]. exists (d :: images), response, tr. done.
      * apply list_elem_of_singleton in Hin. discriminate.
  - intros (-> & images & response & tr & -> & Hne & Hs & Hj & ->). simpl.
    right. rewrite (relay_forwards_json_body server images tabId response tr Hne Hs Hj).
    right. by left.
Qed.

(** * The cycle from click to replacement *)

Lemma clicked_eq conv tabId p :
  tabId ≠ 0 → clicked conv tabId p = collectImageData conv p.
Proof.
  intros Hne. unfold clicked, onClicked.
  destruct (Nat.eqb_spec tabId 0) as [|_]; [done|]. simpl.
  by rewrite Nat.eqb_refl.
Qed.

Lemma clicked_no_tab conv p : clicked conv 0 p = p.
Proof. reflexivity. Qed.

Lemma cycleEffects_eq conv server tabId p :
  tabId ≠ 0 →
  cycleEffects conv server tabId p =
  ConsoleLogFound (length (scanned conv p))
    :: sendImagesToPythonServer server (scanned conv p) tabId.
Proof.
  intros Hne. unfold cycleEffects.
  rewrite clicked_eq by done. rewrite collectImageData_sent.
  rewrite drop_app_length. simpl. by rewrite app_nil_r.
Qed.

Lemma deliver_replace conv tabId tr p :
  deliverToTab conv tabId (TabsSendMessage tabId (REPLACE_IMAGES tr)) p
  = replaceImages tr p.
Proof. simpl. by rewrite Nat.eqb_refl. Qed.

(** What a cycle leaves of the elements, by what the server answers. *)
Lemma cycle_heap conv server tabId p :
  tabId ≠ 0 →
  heap (cycle conv server tabId p) =
  match scanned conv p with
  | [] => heap p
  | images =>
      match server images with
      | NetworkError => heap p
      | Responds response =>
          match json response with
          | None => heap p
          | Some tr =>
              forEach (replaceItem (imageReferenceMap (collectImageData conv p)))
                      tr (heap p)
          end
      end
  end.
Proof.
  intros Hne. unfold cycle. rewrite cycleEffects_eq, clicked_eq by done.
  unfold sendImagesToPythonServer.
  destruct (scanned conv p) as [|d images] eqn:Hs; [done|]. simpl.
  destruct (server (d :: images)) as [|response]; [done|].
  destruct (json response) as [tr|]; [|done]. simpl.
  by rewrite Nat.eqb_refl.
Qed.

(** X11: A cycle degrades to nothing: when the id of the tab is 0, when no image of
    the document is above the threshold, or when the server cannot be
    reached or answers with a body that is not JSON, every element is left
    as it was. In the second case no request reaches the network. *)
Theorem cycle_without_result conv server tabId p :
  tabId = 0 ∨
  (∀ r img, r ∈ document p → heap p !! r = Some img →
     (naturalWidth img ≤ 50)%N ∨ (naturalHeight img ≤ 50)%N) ∨
  (∀ images, server images = NetworkError ∨
             ∃ response, server images = Responds response ∧ json response = None) →
  heap (cycle conv server tabId p) = heap p ∧
  document (cycle conv server tabId p) = document p ∧
  (tabId = 0 → cycle conv server tabId p = p) ∧
  ((∀ r img, r ∈ document p → heap p !! r = Some img →
      (naturalWidth img ≤ 50)%N ∨ (naturalHeight img ≤ 50)%N) →
   filter isFetch (cycleEffects conv server tabId p) = []).
Proof.
  intros Hcase.
  assert (Hsmall : (∀ r img, r ∈ document p → heap p !! r = Some img →
            (naturalWidth img ≤ 50)%N ∨ (naturalHeight img ≤ 50)%N) →
            scanned conv p = []).
  { intros Hs. unfold scanned.
    destruct (emitted conv (heap p) 0 (document p)) as [|d l] eqn:He; [done|].
    assert (Hd : d ∈ emitted conv (heap p) 0 (document p)) by (rewrite He; by left).
    apply elem_of_emitted in Hd as (k & r & Hk & Hd).
    apply descriptorAt_Some in Hd as (img & Hr & Hw & Hh & _).
    apply list_elem_of_lookup_2 in Hk.
    destruct (Hs r img Hk Hr); lia. }
  destruct (decide (tabId = 0)) as [->|Hne].
  { assert (He : cycleEffects conv server 0 p = []).
    { unfold cycleEffects. by rewrite clicked_no_tab, drop_all. }
    assert (Hc : cycle conv server 0 p = p).
    { unfold cycle. by rewrite He, clicked_no_tab. }
    rewrite Hc, He. done. }
  assert (Hdoc : document (cycle conv server tabId p) = document p).
  { unfold cycle. rewrite cycleEffects_eq, clicked_eq by done.
    unfold sendImagesToPythonServer.
    destruct (scanned conv p) as [|d images]; [done|]. simpl.
    destruct (server (d :: images)) as [|response]; [done|].
    destruct (json response) as [tr|]; [|done]. simpl.
    by rewrite Nat.eqb_refl. }
  split; [|split; [done|split; [done|]]].
  - rewrite cycle_heap by done.
    destruct Hcase as [?|[Hs|Hdown]]; [done| |].
    + by rewrite (Hsmall Hs).
    + destruct (scanned conv p) as [|d images]; [done|].
      destruct (Hdown (d :: images)) as [->|(response & -> & ->)]; done.
  - intros Hs. rewrite cycleEffects_eq by done. by rewrite (Hsmall Hs).
Qed.

Lemma cycle_without_result_witness :
  heap (cycle dataUrl (λ _, NetworkError) 7 examplePage) = heap examplePage ∧
  document (cycle dataUrl (λ _, NetworkError) 7 examplePage) = document examplePage ∧
  (7 = 0 → cycle dataUrl (λ _, NetworkError) 7 examplePage = examplePage) ∧
  ((∀ r img, r ∈ document examplePage → heap examplePage !! r = Some img →
      (naturalWidth img ≤ 50)%N ∨ (naturalHeight img ≤ 50)%N) →
   filter isFetch (cycleEffects dataUrl (λ _, NetworkError) 7 examplePage) = []).
Proof.
  apply (cycle_without_result dataUrl (λ _, NetworkError) 7 examplePage).
  right. right. intros images. by left.
Defined.

(** X12: With a server that answers every descriptor by a result under the same
    id, a cycle over a document without repeated elements ends with every
    image that is above the threshold, whose conversion is fulfilled (with a
    data URL or with null) and whose descriptor is given a non-empty
    translation, showing exactly that translation, and with every other
    element as it was. *)
Theorem cycle_translates conv translate tabId p :
  tabId ≠ 0 →
  NoDup (document p) →
  (∀ i r img base64,
     document p !! i = Some r → heap p !! r = Some img →
     (50 < naturalWidth img)%N → (50 < naturalHeight img)%N →
     conv i (src img) = Fulfilled base64 →
     translate (mkDescriptor (imgId i) base64) ≠ "" →
     srcOf (cycle conv (translatingServer translate) tabId p) r
       = Some (translate (mkDescriptor (imgId i) base64))) ∧
  (∀ r,
     (∀ i img base64,
        document p !! i = Some r → heap p !! r = Some img →
        (50 < naturalWidth img)%N → (50 < naturalHeight img)%N →
        conv i (src img) = Fulfilled base64 →
        translate (mkDescriptor (imgId i) base64) = "") →
     srcOf (cycle conv (translatingServer translate) tabId p) r = srcOf p r).
Proof.
  intros Hne Hnd.
  set (f := λ d, mkResult (img_id d) (JString (translate d))).
  set (m' := imageReferenceMap (collectImageData conv p)).
  assert (Hheap : heap (cycle conv (translatingServer translate) tabId p)
                  = forEach (replaceItem m') (f <$> scanned conv p) (heap p)).
  { rewrite cycle_heap by done. unfold translatingServer. simpl.
    by destruct (scanned conv p). }
  (* every entry of the answer comes from an index of the document *)
  assert (Horigin : ∀ d, d ∈ scanned conv p →
            ∃ i r img, document p !! i = Some r ∧ heap p !! r = Some img ∧
              (50 < naturalWidth img)%N ∧ (50 < naturalHeight img)%N ∧
              conv i (src img) = Fulfilled (img_data d) ∧ img_id d = imgId i ∧
              m' !! img_id d = Some r).
  { intros d Hd. unfold scanned in Hd.
    apply elem_of_emitted in Hd as (i & r & Hi & Hd). simpl in Hd.
    apply descriptorAt_Some in Hd as (img & Hr & Hw & Hh & Hc & Hid).
    exists i, r, img. repeat split; try done.
    rewrite Hid. unfold m'. rewrite collectImageData_map.
    assert (Hq : qualifies (heap p) r = true) by (apply qualifies_spec; eauto).
    pose proof (registered_Some_2 (heap p) (document p) 0 i r Hi Hq) as Hk.
    simpl in Hk. by rewrite Hk. }
  split.
  - intros i r img b Hi Hr Hw Hh Hc Ht.
    set (d := mkDescriptor (imgId i) b).
    assert (Hd : d ∈ scanned conv p).
    { unfold scanned. apply elem_of_emitted. exists i, r. split; [done|]. simpl.
      apply descriptorAt_Some. exists img. done. }
    assert (Hnd' : NoDup (scanned conv p)).
    { eapply NoDup_fmap_1. apply emitted_ids_NoDup. }
    apply list_elem_of_split in Hd as (l1 & l2 & Hsplit).
    rewrite Hsplit in Hnd'.
    apply NoDup_app in Hnd' as (_ & _ & Hnd2). apply NoDup_cons in Hnd2 as [Hnin _].
    unfold srcOf. rewrite Hheap, Hsplit, fmap_app, fmap_cons.
    rewrite forEach_replaceItem_lookup, lastWrite_app. simpl.
    rewrite lastWrite_none.
    + assert (Hm : m' !! imgId i = Some r).
      { destruct (Horigin d) as (i' & r' & img' & Hi' & _ & _ & _ & _ & Hid & Hm).
        { rewrite Hsplit. apply elem_of_app. right. by left. }
        simpl in Hid. apply imgId_inj in Hid. subst i'.
        simpl in Hm. congruence. }
      unfold writeOf. simpl. rewrite decide_True by done.
      destruct (String.eqb_spec (translate d) ""); [done|]. simpl.
      by rewrite Hr.
    + intros item Hitem. apply list_elem_of_fmap in Hitem as (d' & -> & Hd').
      destruct (Horigin d') as (i' & r' & img' & Hi' & Hr' & Hw' & Hh' & Hc' & Hid' & Hm').
      { rewrite Hsplit. apply elem_of_app. right. by right. }
      unfold writeOf. simpl. rewrite Hm'.
      destruct (decide (Some r' = Some r)) as [[= ->]|]; [|done].
      exfalso. apply Hnin.
      assert (i' = i) as -> by (eapply NoDup_lookup; eauto).
      assert (d' = d) as ->; [|done].
      destruct d' as [di dd]. simpl in *. unfold d. congruence.
  - intros r Hno. unfold srcOf.
    rewrite Hheap, forEach_replaceItem_lookup, lastWrite_none; [done|].
    intros item Hitem. apply list_elem_of_fmap in Hitem as (d' & -> & Hd').
    destruct (Horigin d' Hd') as (i' & r' & img' & Hi' & Hr' & Hw' & Hh' & Hc' & Hid' & Hm').
    unfold writeOf. simpl. rewrite Hm'.
    destruct (decide (Some r' = Some r)) as [[= ->]|]; [|done].
    assert (Ht : translate d' = "").
    { destruct d' as [di dd]. simpl in *. subst di.
      by apply (Hno i' img' dd). }
    by rewrite Ht.
Qed.

Lemma cycle_translates_witness :
  srcOf (cycle dataUrl (translatingServer (λ d, "translated:" +:+ img_id d)) 7
           examplePage) 2%nat
  = Some ((λ d, "translated:" +:+ img_id d) (mkDescriptor (imgId 2) (JString "data:c.png"))).
Proof.
  apply (proj1 (cycle_translates dataUrl (λ d, "translated:" +:+ img_id d) 7
                  examplePage ltac:(discriminate)
                  (NoDup_seq 0 3))
           2%nat 2%nat (mkImg 60 60 "c.png") (JString "data:c.png")).
  - reflexivity.
  - vm_compute; reflexivity.
  - simpl; lia.
  - simpl; lia.
  - reflexivity.
  - discriminate.
Defined.

(** * Properties of the converters *)

(** X13: [fetchImageAndConvertToBase64] returns a data URL exactly for an ok
    response whose content type starts with image/ and whose body loads. Its
    promise rejects exactly when, for such a response, the reader fails. In
    every other case it returns null and logs exactly one error; it never
    returns undefined. *)
Theorem fetchImageAndConvertToBase64_outcomes net url :
  (∀ s, (fetchImageAndConvertToBase64 net url).1 = Resolves (JString s) ↔
     ∃ response ct,
       net url = Some response ∧ statusOk (img_status response) = true ∧
       contentType response = Some ct ∧ String.prefix "image/" ct = true ∧
       blobRead response = Some (Loaded s)) ∧
  ((fetchImageAndConvertToBase64 net url).1 = Rejects ↔
     ∃ response ct,
       net url = Some response ∧ statusOk (img_status response) = true ∧
       contentType response = Some ct ∧ String.prefix "image/" ct = true ∧
       blobRead response = Some ReadError) ∧
  ((fetchImageAndConvertToBase64 net url).1 = Resolves JNull ↔
     length (fetchImageAndConvertToBase64 net url).2 = 1) ∧
  (fetchImageAndConvertToBase64 net url).1 ≠ Resolves JUndefined.
Proof.
  unfold fetchImageAndConvertToBase64.
  destruct (net url) as [response|] eqn:Hn; simpl.
  2:{ repeat split; try done; by intros (? & ? & ? & _). }
  destruct (statusOk (img_status response)) eqn:Hok; simpl.
  2:{ repeat split; try done; by intros (? & ? & [= <-] & ? & _); congruence. }
  destruct (contentType response) as [ct|] eqn:Hct; simpl.
  2:{ repeat split; try done; by intros (? & ? & [= <-] & _ & ? & _); congruence. }
  destruct (String.prefix "image/" ct) eqn:Hp; simpl.
  2:{ repeat split; try done;
      intros (? & ? & [= <-] & _ & Hct' & Hp' & _);
      rewrite Hct in Hct'; injection Hct' as <-; congruence. }
  destruct (blobRead response) as [[result|]|] eqn:Hb; simpl.
  - repeat split; try done.
    + intros [= <-]. exists response, ct. done.
    + intros (? & ? & [= <-] & _ & _ & _ & Hb'). congruence.
    + intros (? & ? & [= <-] & _ & _ & _ & Hb'). congruence.
  - repeat split; try done.
    + intros (? & ? & [= <-] & _ & _ & _ & Hb'). congruence.
    + intros _. exists response, ct. done.
  - repeat split; try done.
    + intros (? & ? & [= <-] & _ & _ & _ & Hb'). congruence.
    + intros (? & ? & [= <-] & _ & _ & _ & Hb'). congruence.
Qed.

(** X14: The converter of the content script accepts whatever the one of the
    background script accepts, with the same data URL, and more: it encodes
    every body that loads, whatever the status and the content type, where
    the other returns null. Where it rejects, the other returns null. *)
Theorem convertImageToBase64_accepts_more net url :
  (∀ s, (fetchImageAndConvertToBase64 net url).1 = Resolves (JString s) →
        convertImageToBase64 net url = Resolves (JString s)) ∧
  (∀ response s,
     net url = Some response → blobRead response = Some (Loaded s) →
     convertImageToBase64 net url = Resolves (JString s) ∧
     ((fetchImageAndConvertToBase64 net url).1 =
        if statusOk (img_status response)
           && default false (String.prefix "image/" <$> contentType response)
        then Resolves (JString s) else Resolves JNull)) ∧
  (convertImageToBase64 net url = Rejects →
   (fetchImageAndConvertToBase64 net url).1 = Resolves JNull).
Proof.
  unfold fetchImageAndConvertToBase64, convertImageToBase64.
  destruct (net url) as [response|]; simpl; [|done].
  split; [|split].
  - intros s.
    destruct (statusOk (img_status response)); simpl; [|done].
    destruct (contentType response) as [ct|]; simpl; [|done].
    destruct (String.prefix "image/" ct); simpl; [|done].
    by destruct (blobRead response) as [[?|]|].
  - intros ? s [= <-] Hb. rewrite Hb. split; [done|].
    destruct (statusOk (img_status response)); simpl; [|done].
    destruct (contentType response) as [ct|]; simpl; [|done].
    by destruct (String.prefix "image/" ct).
  - destruct (blobRead response) as [[?|]|]; try done. intros _.
    destruct (statusOk (img_status response)); simpl; [|done].
    destruct (contentType response) as [ct|]; simpl; [|done].
    by destruct (String.prefix "image/" ct).
Qed.

(** * Scanning and replacing together *)

(** X15: After a run, the id of index [i] belongs to the image that is at index
    [i] of the scanned document and above the threshold: a result under that
    id sets the source of that image, and an element the id stood for before
    the run is no longer written through it. *)
Theorem scan_then_replace_hits_current_element conv p i r img r0 s :
  document p !! i = Some r →
  heap p !! r = Some img →
  (50 < naturalWidth img)%N →
  (50 < naturalHeight img)%N →
  imageReferenceMap p !! imgId i = Some r0 →
  s ≠ "" →
  let p' := replaceImages [mkResult (imgId i) (JString s)] (collectImageData conv p) in
  srcOf p' r = Some s ∧ (r0 ≠ r → srcOf p' r0 = srcOf p r0).
Proof.
  intros Hi Hr Hw Hh Hold Hs. cbv zeta.
  assert (Hm : imageReferenceMap (collectImageData conv p) !! imgId i = Some r).
  { rewrite collectImageData_map.
    assert (Hq : qualifies (heap p) r = true) by (apply qualifies_spec; eauto).
    pose proof (registered_Some_2 (heap p) (document p) 0 i r Hi Hq) as Hk.
    simpl in Hk. by rewrite Hk. }
  assert (Ht : truthy (JString s) = true).
  { simpl. by destruct (String.eqb_spec s ""). }
  unfold srcOf, replaceImages.
  change (heap (collectImageData conv p)) with (heap p).
  cbn [heap imageReferenceMap forEach].
  rewrite !replaceItem_lookup. unfold writeOf.
  cbn [res_id translatedData]. rewrite Hm, Ht. split.
  - rewrite decide_True by done. simpl. by rewrite Hr.
  - intros Hne. rewrite decide_False by congruence. done.
Qed.

Lemma scan_then_replace_hits_current_element_witness :
  let p := mkPage {["img-0" := 5%nat]}
             (<[5%nat := mkImg 80 80 "old.png"]> (threeImages "a.png" "b.png" "c.png"))
             [0; 1; 2]%nat [] [] in
  let p' := replaceImages [mkResult (imgId 0) (JString "X")] (collectImageData dataUrl p) in
  srcOf p' 0%nat = Some "X" ∧ (5%nat ≠ 0%nat → srcOf p' 5%nat = srcOf p 5%nat).
Proof.
  apply (scan_then_replace_hits_current_element dataUrl
           (mkPage {["img-0" := 5%nat]}
              (<[5%nat := mkImg 80 80 "old.png"]> (threeImages "a.png" "b.png" "c.png"))
              [0; 1; 2]%nat [] [])
           0%nat 0%nat (mkImg 100 100 "a.png") 5%nat "X").
  - reflexivity.
  - vm_compute; reflexivity.
  - simpl; lia.
  - simpl; lia.
  - vm_compute; reflexivity.
  - discriminate.
Defined.

(** * The scanner on the converter of the content script *)

(** When the reader fails on the body of a qualifying image, the awaited
    conversion is fulfilled with null: the loop pushes the descriptor of that
    image with null data and logs nothing. *)
Lemma scanner_pushes_null_result conv p k r img :
  document p !! k = Some r →
  heap p !! r = Some img →
  (50 < naturalWidth img)%N →
  (50 < naturalHeight img)%N →
  conv k (src img) = Fulfilled JNull →
  ∃ images,
    sent (collectImageData conv p) = sent p ++ [IMAGES_FOUND images] ∧
    mkDescriptor (imgId k) JNull ∈ images.
Proof.
  intros Hk Hr Hw Hh Hc. exists (scanned conv p).
  split; [apply collectImageData_sent|].
  unfold scanned. apply elem_of_emitted. exists k, r. split; [done|]. simpl.
  apply descriptorAt_Some. exists img. done.
Qed.

(** C5: the scanner on the three-image page when every fetch succeeds and
    the reader fails while encoding the first image. The conversion of that
    image is fulfilled with null, where the converter of the background
    script rejects; the one message sent still carries an entry for the
    failed image, with null data, beside the entry of the third image, and
    the console stays empty. *)
Theorem scanner_keeps_entry_of_failed_encoding :
  let net := readerFailsOn "a.png" in
  let p := collectImageData (awaited net) examplePage in
  convertImageToBase64 net "a.png" = Resolves JNull ∧
  (fetchImageAndConvertToBase64 net "a.png").1 = Rejects ∧
  sent p = [IMAGES_FOUND [mkDescriptor "img-0" JNull;
                          mkDescriptor "img-2" (JString "data:c.png")]] ∧
  console p = [].
Proof. cbv zeta. repeat split; vm_compute; reflexivity. Qed.
